(** * Indian-food: the biryani delivery map

    A shallow embedding of the React component [App] that counts its
    deliveries (the earlier [src/App.jsx] shares [lerp] and the scale
    curve with it), with the properties of its interpolator and of its
    delivery bookkeeping.

    - JavaScript numbers are IEEE 754 binary64 values: they are modelled by
      Rocq's primitive floats, whose [+], [-], [*], [/] and comparisons are
      the correctly rounded binary64 operations JavaScript prescribes.
    - [Math.sin] is implementation-approximated in ECMAScript, so it is a
      parameter of the model ([sin64]).
    - The arithmetic of [lerp] and of the scale curve is written once, over
      an interface of number operations, and read at two instances: the
      binary64 numbers the program runs on, and the real numbers, in which
      the same expressions are evaluated without rounding.
    - The component state lives in a record; the browser side (the queue of
      animation-frame callbacks, the alerts shown) is explicit in [world]. *)

From Stdlib Require Import Floats.FloatClass Floats.SpecFloat Floats.PrimFloat Floats.FloatOps Floats.FloatAxioms.
From Stdlib Require Import ZArith PArith.
From Stdlib Require Import Bool Arith List Lia.
From Stdlib Require Import Reals Lra.
Import ListNotations.

Set Warnings "-inexact-float".

(** ** Numbers *)

Declare Scope num_scope.
Delimit Scope num_scope with num.

(** The operators and literals the interpolator uses. *)
Class Number (num : Type) : Type := {
  num_add : num -> num -> num;
  num_sub : num -> num -> num;
  num_mul : num -> num -> num;
  lit_1 : num;        (* the literal [1] *)
  lit_0_6 : num;      (* the literal [0.6] *)
}.

(** The part of JavaScript's [Math] object the program calls. *)
Class MathObject (num : Type) : Type := {
  Math_PI : num;
  Math_sin : num -> num;
}.

Infix "+" := num_add : num_scope.
Infix "-" := num_sub : num_scope.
Infix "*" := num_mul : num_scope.

(** JavaScript's Number type. *)
#[export] Instance js_number : Number float := {
  num_add := PrimFloat.add;
  num_sub := PrimFloat.sub;
  num_mul := PrimFloat.mul;
  lit_1 := 1%float;
  lit_0_6 := 0.6%float;
}.

(** [Math.PI] is the binary64 value nearest to pi; [Math.sin] is whatever
    the engine provides. *)
Definition Math_PI64 : float := 3.141592653589793%float.

Definition js_math (sin64 : float -> float) : MathObject float := {|
  Math_PI := Math_PI64;
  Math_sin := sin64;
|}.

(** The same operators on the reals: no rounding. *)
#[export] Instance real_number : Number R := {
  num_add := Rplus;
  num_sub := Rminus;
  num_mul := Rmult;
  lit_1 := 1%R;
  lit_0_6 := (6 / 10)%R;
}.

#[export] Instance real_math : MathObject R := {
  Math_PI := PI;
  Math_sin := sin;
}.

(** [Math.min] on two arguments: NaN if either is NaN, and [-0] is smaller
    than [+0]. *)
Definition is_neg_zero (x : float) : bool :=
  match classify x with
  | NZero => true
  | _ => false
  end.

Definition Math_min (a b : float) : float :=
  if is_nan a || is_nan b then nan
  else if (a <? b)%float then a
  else if (b <? a)%float then b
  else if is_neg_zero a then a else b.

(** ** The interpolator *)

Section Interpolator.
Context {num : Type} {N : Number num} {M : MathObject num}.
Local Open Scope num_scope.

(** [function lerp(a, b, t) { return a + (b - a) * t; }], the same in both
    versions of the component. *)
Definition lerp (a b t : num) : num := a + (b - a) * t.

(** [1 + 0.6 * Math.sin(Math.PI * t)], the value [step] gives [scaleValue]. *)
Definition scaleValue (t : num) : num :=
  lit_1 + lit_0_6 * Math_sin (Math_PI * t).

(** The pair [[lat, lng]] that [step] passes to [setMovingPosition]. *)
Definition position (from to : num * num) (t : num) : num * num :=
  let lat := lerp (fst from) (fst to) t in
  let lng := lerp (snd from) (snd to) t in
  (lat, lng).

(** What [step] computes from [from], [to] and [t]: the position and the
    scale. *)
Definition interpolate (from to : num * num) (t : num) : (num * num) * num :=
  (position from to t, scaleValue t).

(** The contract of the specification, written from its words:
    [position.lat = from.lat + (to.lat - from.lat) * t], the same for the
    longitude, and [scale = 1 + 0.6 * sin(pi * t)]. *)
Definition interpolate_spec (from to : num * num) (t : num) : (num * num) * num :=
  ((fst from + (fst to - fst from) * t,
    snd from + (snd to - snd from) * t),
   lit_1 + lit_0_6 * Math_sin (Math_PI * t)).

End Interpolator.

(** ** The component *)

(** A coordinate is the array [[lat, lng]]. *)
Definition coord : Type := (float * float)%type.

Definition INDIA_COORD : coord := (13.054864947131488, 80.2241185689344)%float.
Definition ARGENTINA_COORD : coord := (-34.58419557192974, -58.39822695799831)%float.

Definition MAX_DELIVERIES : nat := 5.

(** The six [useState] cells of [App]. [deliveredCount] only ever holds a
    small non-negative integer, on which binary64 arithmetic is exact. *)
Record state : Type := mkState {
  movingPosition : option coord;
  showIdle : bool;
  deliveredMarkers : list coord;
  isAnimating : bool;
  movingScale : float;
  deliveredCount : nat;
}.

Definition with_showIdle (b : bool) (s : state) : state :=
  mkState (movingPosition s) b (deliveredMarkers s) (isAnimating s)
          (movingScale s) (deliveredCount s).

Definition with_deliveredCount (n : nat) (s : state) : state :=
  mkState (movingPosition s) (showIdle s) (deliveredMarkers s) (isAnimating s)
          (movingScale s) n.

(** The calls of the state setters. An updater function is named by what
    it does to the previous value. *)
Inductive setState : Type :=
| setMovingPosition (p : option coord)
| setShowIdle (b : bool)
| setDeliveredMarkers_append (c : coord)     (* [(prev) => [...prev, c]] *)
| setIsAnimating (b : bool)
| setMovingScale (x : float)
| setDeliveredCount_next.                    (* the updater of [step] *)

(** The updater [step] passes to [setDeliveredCount]: it sets [showIdle]
    on the way and returns [prev + 1]. *)
Definition deliveredCount_updater (s : state) : state :=
  let next := deliveredCount s + 1 in
  let s :=
    if next <? MAX_DELIVERIES
    then with_showIdle true s
    else with_showIdle false s in
  with_deliveredCount next s.

Definition apply_setState (u : setState) (s : state) : state :=
  match u with
  | setMovingPosition p =>
      mkState p (showIdle s) (deliveredMarkers s) (isAnimating s)
              (movingScale s) (deliveredCount s)
  | setShowIdle b => with_showIdle b s
  | setDeliveredMarkers_append c =>
      mkState (movingPosition s) (showIdle s) (deliveredMarkers s ++ [c])
              (isAnimating s) (movingScale s) (deliveredCount s)
  | setIsAnimating b =>
      mkState (movingPosition s) (showIdle s) (deliveredMarkers s) b
              (movingScale s) (deliveredCount s)
  | setMovingScale x =>
      mkState (movingPosition s) (showIdle s) (deliveredMarkers s)
              (isAnimating s) x (deliveredCount s)
  | setDeliveredCount_next => deliveredCount_updater s
  end.

(** The two [window.alert] messages of [handleOrderClick]. *)
Inductive notice : Type :=
| alert_max_deliveries    (* shown when [deliveredCount >= MAX_DELIVERIES] *)
| alert_no_idle.          (* "No biryani is currently waiting in India" *)

(** The variables a [step] closure captures. *)
Record animation : Type := mkAnimation {
  anim_from : coord;
  anim_to : coord;
  durationMs : float;
  start : float;
}.

(** The component together with its environment: the state cells, the ref
    [animRef], the browser's list of requested animation-frame callbacks
    (each with the handle [requestAnimationFrame] returned), the next
    handle, and the alerts shown so far. *)
Record world : Type := mkWorld {
  ui : state;
  animRef : option nat;
  frames : list (nat * animation);
  next_handle : nat;
  alerts : list notice;
}.

Definition initial_state : state :=
  mkState None true [] false 1%float 0.

Definition initial_world : world :=
  mkWorld initial_state None [] 1 [].

(** A setter call. The handlers read the state cells only at their start
    and [step] reads none, so applying the queued updates in order as they
    are made gives the state React commits after the handler. *)
Definition call (u : setState) (w : world) : world :=
  mkWorld (apply_setState u (ui w)) (animRef w) (frames w) (next_handle w)
          (alerts w).

Definition window_alert (n : notice) (w : world) : world :=
  mkWorld (ui w) (animRef w) (frames w) (next_handle w) (alerts w ++ [n]).

(** [animRef.current = requestAnimationFrame(step)] *)
Definition requestAnimationFrame_step (a : animation) (w : world) : world :=
  mkWorld (ui w) (Some (next_handle w)) (frames w ++ [(next_handle w, a)])
          (S (next_handle w)) (alerts w).

(** [animRef.current = null] *)
Definition clear_animRef (w : world) : world :=
  mkWorld (ui w) None (frames w) (next_handle w) (alerts w).

(** [animateBucket({ from, to, durationMs })], with [now] the value
    [performance.now()] returns. *)
Definition animateBucket (from to : coord) (duration now : float)
    (w : world) : world :=
  let w := call (setMovingPosition (Some from)) w in
  let w := call (setMovingScale 1%float) w in
  let w := call (setIsAnimating true) w in
  requestAnimationFrame_step (mkAnimation from to duration now) w.

(** The order button's handler. *)
Definition handleOrderClick (now : float) (w : world) : world :=
  if MAX_DELIVERIES <=? deliveredCount (ui w) then
    window_alert alert_max_deliveries w
  else if isAnimating (ui w) then w
  else if negb (showIdle (ui w)) then
    window_alert alert_no_idle w
  else
    let w := call (setShowIdle false) w in
    animateBucket INDIA_COORD ARGENTINA_COORD 6000%float now w.

(** The fraction [t] of [step]: [Math.min(1, elapsed / durationMs)]. *)
Definition progress (a : animation) (now : float) : float :=
  let elapsed := (now - start a)%float in
  Math_min 1 (elapsed / durationMs a)%float.

(** What can happen to the mounted component: the user asks for a delivery
    at time [now], or the browser paints a frame at time [now]. *)
Inductive event : Type :=
| Dispatch (now : float)
| Frame (now : float).

Section App.
(** The engine's [Math.sin]. *)
Variable sin64 : float -> float.

(** [step(now)], the animation-frame callback of the closure [a]. *)
Definition step (a : animation) (now : float) (w : world) : world :=
  let t := progress a now in
  let lat := lerp (fst (anim_from a)) (fst (anim_to a)) t in
  let lng := lerp (snd (anim_from a)) (snd (anim_to a)) t in
  let w := call (setMovingPosition (Some (lat, lng))) w in
  let scaleValue := scaleValue (M := js_math sin64) t in
  let w := call (setMovingScale scaleValue) w in
  if (t <? 1)%float then
    requestAnimationFrame_step a w
  else
    let w := clear_animRef w in
    let w := call (setIsAnimating false) w in
    let w := call (setDeliveredMarkers_append (anim_to a)) w in
    let w := call setDeliveredCount_next w in
    let w := call (setMovingPosition None) w in
    call (setMovingScale 1%float) w.

(** The browser runs the callbacks requested before the frame, in order,
    each with the frame's timestamp; what they request is for the next
    frame. *)
Definition run_frame (now : float) (w : world) : world :=
  fold_left (fun w c => step (snd c) now w) (frames w)
            (mkWorld (ui w) (animRef w) [] (next_handle w) (alerts w)).

Definition handle (w : world) (e : event) : world :=
  match e with
  | Dispatch now => handleOrderClick now w
  | Frame now => run_frame now w
  end.

Definition run (evs : list event) (w : world) : world :=
  fold_left handle evs w.

(** The states reachable from the initial one. *)
Definition reachable (w : world) : Prop :=
  exists evs, w = run evs initial_world.

End App.

(** ** The delivery tracker of the specification *)

Inductive tracker : Type :=
| Idle          (* ready to dispatch, count below the cap *)
| InFlight      (* a trip is active *)
| Exhausted.    (* the count has reached the cap *)

(** A trip is active while the browser holds a [step] callback for it. *)
Definition active_trips (w : world) : list animation := map snd (frames w).

Definition tracker_state (w : world) : tracker :=
  match active_trips w with
  | _ :: _ => InFlight
  | [] => if MAX_DELIVERIES <=? deliveredCount (ui w) then Exhausted else Idle
  end.

(** The closure [handleOrderClick] creates at time [now]. *)
Definition trip (now : float) : animation :=
  mkAnimation INDIA_COORD ARGENTINA_COORD 6000%float now.

(** A completed dispatch: the request at time [ordered], the frames painted
    while the trip is under way, and the frame at which it arrives. *)
Record dispatch : Type := mkDispatch {
  ordered : float;
  under_way : list float;
  arrival : float;
}.

Definition dispatch_events (d : dispatch) : list event :=
  Dispatch (ordered d) :: map Frame (under_way d) ++ [Frame (arrival d)].

(** The frames of [d] happen as its name says: every frame before the last
    finds [t < 1], the last one does not. *)
Definition completes (d : dispatch) : bool :=
  forallb (fun now => (progress (trip (ordered d)) now <? 1)%float) (under_way d)
  && negb (progress (trip (ordered d)) (arrival d) <? 1)%float.

Definition dispatch_requests (evs : list event) : nat :=
  length (filter (fun e => match e with Dispatch _ => true | Frame _ => false end) evs).

(** A rejected request that tells the user: nothing changes but the alerts,
    which gain one. *)
Definition rejected_with_notice (w w' : world) : Prop :=
  ui w' = ui w /\ animRef w' = animRef w /\ frames w' = frames w /\
  exists n, alerts w' = alerts w ++ [n].

(** The path condition of the third rejection of [handleOrderClick]. *)
Definition no_idle_branch (w : world) : bool :=
  negb (MAX_DELIVERIES <=? deliveredCount (ui w))
  && negb (isAnimating (ui w))
  && negb (showIdle (ui w)).

(** ** Tolerance and segments *)

(** The coordinates as the specification's example rounds them. *)
Definition example_from : coord := (13.0549, 80.2241)%float.
Definition example_to : coord := (-34.5842, -58.3982)%float.

(** Two binary64 numbers agree within the tolerance, here [1e-13]. *)
Definition tolerance : float := 1e-13%float.

Definition close64 (x y : float) : bool :=
  (abs (x - y) <=? tolerance)%float.

Definition coord_close64 (p q : coord) : bool :=
  close64 (fst p) (fst q) && close64 (snd p) (snd q).

(** [x] lies between [a] and [b], in binary64 and in the reals. *)
Definition between64 (a b x : float) : bool :=
  ((a <=? x) && (x <=? b) || (b <=? x) && (x <=? a))%float.

Definition on_segment64 (from to p : coord) : bool :=
  between64 (fst from) (fst to) (fst p) && between64 (snd from) (snd to) (snd p).

Definition between (a b x : R) : Prop :=
  (a <= x <= b \/ b <= x <= a)%R.

(** [(1 - t) * from + t * to], componentwise. *)
Definition convex64 (from to : coord) (t : float) : coord :=
  ((1 - t) * fst from + t * fst to, (1 - t) * snd from + t * snd to)%float.

Definition convex (from to : R * R) (t : R) : R * R :=
  ((1 - t) * fst from + t * fst to, (1 - t) * snd from + t * snd to)%R.

(** The components of [p] and [q] are equal numbers, as [===] compares. *)
Definition coord_eqb (p q : coord) : bool :=
  ((fst p =? fst q) && (snd p =? snd q))%float.

(** The components of [from] and the differences [to - from] are finite
    (neither NaN nor an infinity). *)
Definition finite_trip (from to : coord) : bool :=
  is_finite (fst from) && is_finite (snd from)
  && is_finite (fst to - fst from)%float
  && is_finite (snd to - snd from)%float.

(** The sines of the three arguments the endpoint checks use, as a
    correctly rounded [Math.sin] returns them, for running the model on a
    concrete engine. *)
Definition sin64_table (x : float) : float :=
  if (x =? 0)%float then x
  else if (x =? 1.5707963267948966)%float then 1%float
  else if (x =? 3.141592653589793)%float then 1.2246467991473532e-16%float
  else nan.

(** A dispatch requested at time [c] with frames 16 ms and 3 s later, and
    the arrival after the full 6 s; five of them, 7 s apart. *)
Definition sample_dispatch (c : float) : dispatch :=
  mkDispatch c [c + 16; c + 3000]%float (c + 6000)%float.

Definition five_dispatches : list dispatch :=
  map sample_dispatch [0; 7000; 14000; 21000; 28000]%float.

(** ** The bookkeeping invariant *)

Definition pending_handle (w : world) : option nat :=
  match frames w with
  | [] => None
  | (h, _) :: _ => Some h
  end.

Definition has_trip (w : world) : bool :=
  match frames w with
  | [] => false
  | _ :: _ => true
  end.

Definition has_position (s : state) : bool :=
  match movingPosition s with
  | Some _ => true
  | None => false
  end.

(** What every reachable world satisfies. *)
Record invariant (w : world) : Prop := mkInvariant {
  inv_one_trip : length (frames w) <= 1;
  inv_animating : isAnimating (ui w) = has_trip w;
  inv_position : has_position (ui w) = isAnimating (ui w);
  inv_showIdle :
    showIdle (ui w) =
    negb (isAnimating (ui w)) && (deliveredCount (ui w) <? MAX_DELIVERIES);
  inv_markers : length (deliveredMarkers (ui w)) = deliveredCount (ui w);
  inv_cap : deliveredCount (ui w) <= MAX_DELIVERIES;
  inv_in_flight : isAnimating (ui w) = true ->
                  deliveredCount (ui w) < MAX_DELIVERIES;
  inv_scale : isAnimating (ui w) = false -> movingScale (ui w) = 1%float;
  inv_animRef : animRef w = pending_handle w;
  inv_alerts : ~ In alert_no_idle (alerts w);
}.

(** ** What the component shows *)

(** The two options of [L.icon] that depend on the scale. *)
Record icon : Type := mkIcon {
  iconSize : float * float;
  iconAnchor : float * float;
}.

(** [createBucketIcon(scale)] of the counting component. *)
Definition createBucketIcon (scale : float) : icon :=
  mkIcon (80 * scale, 90 * scale)%float (60 * scale, 60 * scale)%float.

(** A [<Marker>] element. *)
Record marker : Type := mkMarker {
  marker_position : coord;
  marker_icon : icon;
  zIndexOffset : nat;
}.

(** [{movingPosition && (<Marker ... />)}] *)
Definition moving_marker (s : state) : list marker :=
  match movingPosition s with
  | Some p => [mkMarker p (createBucketIcon (movingScale s)) 1000]
  | None => []
  end.

(** [{showIdle && !isAnimating && (<Marker ... />)}] *)
Definition idle_marker (s : state) : list marker :=
  if showIdle s && negb (isAnimating s)
  then [mkMarker INDIA_COORD (createBucketIcon 0.9%float) 500]
  else [].

(** [{deliveredMarkers.map((pos, i) => (<Marker ... />))}] *)
Definition delivered_markers (s : state) : list marker :=
  map (fun pos => mkMarker pos (createBucketIcon 1%float) 400)
      (deliveredMarkers s).

(** The markers inside the [<MapContainer>], in the order of the JSX. *)
Definition render_markers (s : state) : list marker :=
  moving_marker s ++ idle_marker s ++ delivered_markers s.

(** The [pos] given to [<FollowMarker>]:
    [movingPosition || (deliveredMarkers[deliveredMarkers.length - 1] ?? INDIA_COORD)]. *)
Definition follow_pos (s : state) : coord :=
  match movingPosition s with
  | Some p => p
  | None => last (deliveredMarkers s) INDIA_COORD
  end.

(** The button's [disabled] attribute, and a click on the button: a
    disabled button fires no click event. *)
Definition button_disabled (s : state) : bool := isAnimating s.

Definition button_click (now : float) (w : world) : world :=
  if button_disabled (ui w) then w else handleOrderClick now w.

(** The runs in which the user can only click the button. *)
Definition handle_button (sin64 : float -> float) (w : world) (e : event) : world :=
  match e with
  | Dispatch now => button_click now w
  | Frame now => run_frame sin64 now w
  end.

Definition run_button (sin64 : float -> float) (evs : list event) (w : world) : world :=
  fold_left (handle_button sin64) evs w.

(** [cancelAnimationFrame(h)] *)
Definition cancelAnimationFrame (h : nat) (w : world) : world :=
  mkWorld (ui w) (animRef w)
          (filter (fun c => negb (fst c =? h)) (frames w))
          (next_handle w) (alerts w).

(** The cleanup of the mount effect:
    [if (animRef.current) cancelAnimationFrame(animRef.current)]; the
    handle 0 is falsy, like [null]. *)
Definition unmount (w : world) : world :=
  match animRef w with
  | Some h => if h =? 0 then w else cancelAnimationFrame h w
  | None => w
  end.

(** What the bookkeeping invariant leaves out: the handles are positive
    and below the next one, every pending trip is the one
    [handleOrderClick] starts, every delivered marker is the destination,
    and the only alert ever shown is the one of the cap, at the cap. *)
Record provenance (w : world) : Prop := mkProvenance {
  prov_next : 1 <= next_handle w;
  prov_handles :
    Forall (fun c => 1 <= fst c /\ fst c < next_handle w) (frames w);
  prov_trips : Forall (fun c => exists now, snd c = trip now) (frames w);
  prov_markers :
    deliveredMarkers (ui w) = repeat ARGENTINA_COORD (deliveredCount (ui w));
  prov_alerts :
    alerts w = repeat alert_max_deliveries (length (alerts w));
  prov_alert_cap :
    alerts w <> [] -> deliveredCount (ui w) = MAX_DELIVERIES;
}.

(** The count and the markers after [w'] extend those of [w]: some
    markers were appended and the count went up by their number. *)
Definition extends (w w' : world) : Prop :=
  exists l,
    deliveredMarkers (ui w') = deliveredMarkers (ui w) ++ l /\
    deliveredCount (ui w') = deliveredCount (ui w) + length l.

(** ** The first version of the component ([src/App.jsx]) *)

Module FirstVersion.

Definition INDIA_COORD : coord := (13.0583, 80.2340)%float.
Definition ARGENTINA_COORD : coord := (-34.6037, -58.3816)%float.

Definition createBucketIcon (scale : float) : icon :=
  mkIcon (150 * scale, 150 * scale)%float (60 * scale, 60 * scale)%float.

(** The three [useState] cells. *)
Record state : Type := mkState {
  position : coord;
  isAnimating : bool;
  scale : float;
}.

(** The component with the ref [animationRef], the intervals the browser
    holds (each with the handle [setInterval] returned) and the next
    handle. *)
Record world : Type := mkWorld {
  ui : state;
  animationRef : option nat;
  intervals : list (nat * animation);
  next_handle : nat;
}.

Definition initial_world : world :=
  mkWorld (mkState INDIA_COORD false 1%float) None [] 1.

Definition setPosition (p : coord) (w : world) : world :=
  mkWorld (mkState p (isAnimating (ui w)) (scale (ui w)))
          (animationRef w) (intervals w) (next_handle w).

Definition setIsAnimating (b : bool) (w : world) : world :=
  mkWorld (mkState (position (ui w)) b (scale (ui w)))
          (animationRef w) (intervals w) (next_handle w).

Definition setScale (x : float) (w : world) : world :=
  mkWorld (mkState (position (ui w)) (isAnimating (ui w)) x)
          (animationRef w) (intervals w) (next_handle w).

(** [clearInterval(h)] *)
Definition clearInterval (h : nat) (w : world) : world :=
  mkWorld (ui w) (animationRef w)
          (filter (fun c => negb (fst c =? h)) (intervals w))
          (next_handle w).

(** [clearInterval(animationRef.current)]: clearing [null] does nothing. *)
Definition clearInterval_current (w : world) : world :=
  match animationRef w with
  | Some h => clearInterval h w
  | None => w
  end.

(** [animationRef.current = setInterval(..., stepMs)] *)
Definition setInterval_current (a : animation) (w : world) : world :=
  mkWorld (ui w) (Some (next_handle w))
          (intervals w ++ [(next_handle w, a)]) (S (next_handle w)).

(** [animationRef.current = null] *)
Definition clear_animationRef (w : world) : world :=
  mkWorld (ui w) None (intervals w) (next_handle w).

(** [animateBucket({ from, to, durationMs })], with [now] the value of
    [Date.now()]. *)
Definition animateBucket (from to : coord) (duration now : float)
    (w : world) : world :=
  let w :=
    match animationRef w with
    | Some h => if h =? 0 then w else clearInterval h w
    | None => w
    end in
  let w := setIsAnimating true w in
  setInterval_current (mkAnimation from to duration now) w.

Definition handleOrderClick (now : float) (w : world) : world :=
  animateBucket INDIA_COORD ARGENTINA_COORD 6000%float now w.

(** The closure [handleOrderClick] creates at time [now]. *)
Definition trip (now : float) : animation :=
  mkAnimation INDIA_COORD ARGENTINA_COORD 6000%float now.

Section Callback.
Variable sin64 : float -> float.

(** The interval callback of the closure [a], with [now] the value of
    [Date.now()]. *)
Definition tick (a : animation) (now : float) (w : world) : world :=
  let t := progress a now in
  let lat := lerp (fst (anim_from a)) (fst (anim_to a)) t in
  let lng := lerp (snd (anim_from a)) (snd (anim_to a)) t in
  let w := setPosition (lat, lng) w in
  let scaleValue := scaleValue (M := js_math sin64) t in
  let w := setScale scaleValue w in
  if (1 <=? t)%float then
    let w := clearInterval_current w in
    let w := clear_animationRef w in
    setIsAnimating false w
  else w.

(** What can happen: the button's handler runs at time [now], or the
    browser fires the interval with handle [h] at time [now]; a handle
    that is not held fires nothing. *)
Inductive event : Type :=
| Click (now : float)
| Tick (h : nat) (now : float).

Definition fire (h : nat) (now : float) (w : world) : world :=
  match find (fun c => fst c =? h) (intervals w) with
  | Some c => tick (snd c) now w
  | None => w
  end.

Definition handle (w : world) (e : event) : world :=
  match e with
  | Click now => handleOrderClick now w
  | Tick h now => fire h now w
  end.

Definition run (evs : list event) (w : world) : world :=
  fold_left handle evs w.

End Callback.

(** What every reachable world of the first version satisfies. *)
Record invariant (w : world) : Prop := mkInvariant {
  inv_next : 1 <= next_handle w;
  inv_trips : Forall (fun c => exists now, snd c = trip now) (intervals w);
  inv_ref :
    match animationRef w with
    | Some h => 1 <= h /\ h < next_handle w /\
                exists a, intervals w = [(h, a)]
    | None => intervals w = []
    end;
  inv_animating :
    isAnimating (ui w) =
    match intervals w with [] => false | _ :: _ => true end;
}.

End FirstVersion.

(** * Proofs *)

(** ** The step function, branch by branch *)

Section StepFacts.
Variable sin64 : float -> float.

Lemma deliveredCount_updater_eq s :
  deliveredCount_updater s =
  mkState (movingPosition s) (deliveredCount s + 1 <? MAX_DELIVERIES)
          (deliveredMarkers s) (isAnimating s) (movingScale s)
          (deliveredCount s + 1).
Proof.
  unfold deliveredCount_updater.
  now destruct (deliveredCount s + 1 <? MAX_DELIVERIES).
Qed.

Lemma step_under_way a now w :
  (progress a now <? 1)%float = true ->
  step sin64 a now w =
  mkWorld
    (mkState (Some (position (anim_from a) (anim_to a) (progress a now)))
             (showIdle (ui w)) (deliveredMarkers (ui w)) (isAnimating (ui w))
             (scaleValue (M := js_math sin64) (progress a now))
             (deliveredCount (ui w)))
    (Some (next_handle w)) (frames w ++ [(next_handle w, a)])
    (S (next_handle w)) (alerts w).
Proof.
  intros Ht. unfold step. cbn zeta. now rewrite Ht.
Qed.

Lemma step_arrived a now w :
  (progress a now <? 1)%float = false ->
  step sin64 a now w =
  mkWorld
    (mkState None
             (deliveredCount (ui w) + 1 <? MAX_DELIVERIES)
             (deliveredMarkers (ui w) ++ [anim_to a])
             false 1%float (deliveredCount (ui w) + 1))
    None (frames w) (next_handle w) (alerts w).
Proof.
  intros Ht. unfold step. cbn zeta.
  rewrite Ht. unfold call, clear_animRef.
  cbn [ui animRef frames next_handle alerts apply_setState].
  now rewrite deliveredCount_updater_eq.
Qed.

(** [handleOrderClick] when none of its three guards fires. *)
Lemma handleOrderClick_starts now w :
  deliveredCount (ui w) < MAX_DELIVERIES ->
  isAnimating (ui w) = false ->
  showIdle (ui w) = true ->
  handleOrderClick now w =
  mkWorld
    (mkState (Some INDIA_COORD) false (deliveredMarkers (ui w)) true 1%float
             (deliveredCount (ui w)))
    (Some (next_handle w)) (frames w ++ [(next_handle w, trip now)])
    (S (next_handle w)) (alerts w).
Proof.
  intros Hlt Hanim Hidle. unfold handleOrderClick.
  apply Nat.leb_gt in Hlt. rewrite Hlt, Hanim, Hidle. reflexivity.
Qed.

Lemma run_frame_idle now w :
  frames w = [] -> run_frame sin64 now w = w.
Proof.
  intros Hf. unfold run_frame. rewrite Hf. cbn.
  destruct w; cbn in *; now subst.
Qed.

Lemma run_frame_one now w h a :
  frames w = [(h, a)] ->
  run_frame sin64 now w =
  step sin64 a now (mkWorld (ui w) (animRef w) [] (next_handle w) (alerts w)).
Proof.
  intros Hf. unfold run_frame. now rewrite Hf.
Qed.

Lemma run_nil w : run sin64 [] w = w.
Proof. reflexivity. Qed.

Lemma run_cons e evs w :
  run sin64 (e :: evs) w = run sin64 evs (handle sin64 w e).
Proof. reflexivity. Qed.

Lemma run_app evs1 evs2 w :
  run sin64 (evs1 ++ evs2) w = run sin64 evs2 (run sin64 evs1 w).
Proof. unfold run. apply fold_left_app. Qed.

(** ** The invariant holds in every reachable world *)

Lemma invariant_initial : invariant initial_world.
Proof.
  constructor; cbn; auto; lia.
Qed.

Lemma invariant_handleOrderClick now w :
  invariant w -> invariant (handleOrderClick now w).
Proof.
  intros I. unfold handleOrderClick.
  destruct (MAX_DELIVERIES <=? deliveredCount (ui w)) eqn:Hmax.
  - destruct I. constructor; cbn; auto.
    rewrite in_app_iff. intros [Hin | [Heq | []]]; [auto | discriminate].
  - destruct (isAnimating (ui w)) eqn:Hanim; [exact I|].
    apply Nat.leb_gt in Hmax.
    destruct (showIdle (ui w)) eqn:Hidle; cbn [negb].
    + destruct I. rewrite Hanim in *.
      unfold has_trip in *. destruct (frames w) eqn:Hf; [|discriminate].
      constructor; unfold has_trip, pending_handle; cbn; rewrite ?Hf; cbn;
        auto; try lia; try discriminate.
    + exfalso. pose proof (inv_showIdle w I) as Hs.
      apply Nat.ltb_lt in Hmax.
      rewrite Hanim, Hidle, Hmax in Hs. discriminate.
Qed.

Lemma invariant_run_frame now w :
  invariant w -> invariant (run_frame sin64 now w).
Proof.
  intros I. destruct (frames w) as [|[h a] l] eqn:Hf.
  - now rewrite run_frame_idle.
  - destruct I. rewrite Hf in inv_one_trip0. cbn in inv_one_trip0.
    destruct l; [|cbn in inv_one_trip0; lia].
    rewrite (run_frame_one now w h a Hf).
    assert (Hanim : isAnimating (ui w) = true).
    { rewrite inv_animating0. unfold has_trip. now rewrite Hf. }
    specialize (inv_in_flight0 Hanim).
    destruct (progress a now <? 1)%float eqn:Ht.
    + rewrite step_under_way by exact Ht.
      constructor; cbn; auto; try lia; try congruence.
    + rewrite step_arrived by exact Ht.
      constructor; cbn; rewrite ?length_app; cbn; auto; try lia;
        try discriminate.
Qed.

Lemma invariant_handle w e :
  invariant w -> invariant (handle sin64 w e).
Proof.
  destruct e; cbn.
  - apply invariant_handleOrderClick.
  - apply invariant_run_frame.
Qed.

Lemma invariant_run evs w :
  invariant w -> invariant (run sin64 evs w).
Proof.
  revert w. induction evs as [|e evs IH]; intros w I; cbn.
  - exact I.
  - apply IH, invariant_handle, I.
Qed.

Lemma invariant_reachable evs : invariant (run sin64 evs initial_world).
Proof. apply invariant_run, invariant_initial. Qed.

Lemma reachable_invariant w : reachable sin64 w -> invariant w.
Proof. intros [evs ->]. apply invariant_reachable. Qed.

End StepFacts.


(** ** The delivery tracker *)

(** Name the world a run ends in and bring in its invariant. *)
Tactic Notation "reached" constr(sin64) constr(evs) "as" ident(w) ident(I) :=
  intros w; pose proof (invariant_reachable sin64 evs) as I; fold w in I.

(** Split on the guards of [handleOrderClick] in a world with invariant
    [I]: a trip under way, the cap reached, or ready to start. *)
Tactic Notation "by_guards" constr(w) constr(I)
    "as" ident(Hanim) ident(Hcap) ident(Hf) :=
  destruct (isAnimating (ui w)) eqn:Hanim;
  [ | destruct (Nat.lt_ge_cases (deliveredCount (ui w)) MAX_DELIVERIES)
        as [Hcap | Hcap];
      [ assert (Hf : frames w = [])
          by (rewrite (inv_animating w I) in Hanim; unfold has_trip in Hanim;
              destruct (frames w); [reflexivity | discriminate]) | ] ].

Section Tracker.
Variable sin64 : float -> float.

Lemma in_flight_animating w :
  invariant w -> tracker_state w = InFlight -> isAnimating (ui w) = true.
Proof.
  intros I Ht. rewrite (inv_animating w I). revert Ht.
  unfold tracker_state, active_trips, has_trip.
  destruct (frames w); cbn [map]; [|reflexivity].
  destruct (MAX_DELIVERIES <=? deliveredCount (ui w)); discriminate.
Qed.

Lemma not_in_flight_idle w :
  invariant w -> active_trips w = [] ->
  frames w = [] /\ isAnimating (ui w) = false.
Proof.
  intros I Ha. unfold active_trips in Ha.
  destruct (frames w) eqn:Hf; [|discriminate].
  split; [reflexivity|]. rewrite (inv_animating w I). unfold has_trip.
  now rewrite Hf.
Qed.

(** A request made while a trip is under way returns at the second guard. *)
Lemma handleOrderClick_animating now w :
  invariant w -> isAnimating (ui w) = true -> handleOrderClick now w = w.
Proof.
  intros I Hanim. unfold handleOrderClick.
  pose proof (inv_in_flight w I Hanim) as Hlt.
  apply Nat.leb_gt in Hlt. now rewrite Hlt, Hanim.
Qed.

(** A request made at the cap returns at the first guard. *)
Lemma handleOrderClick_exhausted now w :
  MAX_DELIVERIES <= deliveredCount (ui w) ->
  handleOrderClick now w = window_alert alert_max_deliveries w.
Proof.
  intros Hle. unfold handleOrderClick.
  apply Nat.leb_le in Hle. now rewrite Hle.
Qed.

(** A request made with no trip under way and the count below the cap
    starts the trip from India to Argentina. *)
Lemma handleOrderClick_ready now w :
  invariant w -> frames w = [] -> deliveredCount (ui w) < MAX_DELIVERIES ->
  handleOrderClick now w =
  mkWorld
    (mkState (Some INDIA_COORD) false (deliveredMarkers (ui w)) true 1%float
             (deliveredCount (ui w)))
    (Some (next_handle w)) [(next_handle w, trip now)]
    (S (next_handle w)) (alerts w).
Proof.
  intros I Hf Hlt.
  assert (Hanim : isAnimating (ui w) = false).
  { rewrite (inv_animating w I). unfold has_trip. now rewrite Hf. }
  assert (Hidle : showIdle (ui w) = true).
  { rewrite (inv_showIdle w I), Hanim. apply Nat.ltb_lt in Hlt.
    now rewrite Hlt. }
  rewrite handleOrderClick_starts by assumption. now rewrite Hf.
Qed.




(** C8: in every reachable state the delivered markers are as many as the
    delivered count says; both start empty, and the frame at which a trip
    arrives appends one marker, the trip's destination, and adds one to
    the count. *)
Theorem markers_match_count (evs : list event) :
  let w := run sin64 evs initial_world in
  length (deliveredMarkers (ui w)) = deliveredCount (ui w) /\
  (deliveredMarkers (ui initial_world) = [] /\
   deliveredCount (ui initial_world) = 0) /\
  (forall a now w0,
      (progress a now <? 1)%float = false ->
      let w1 := step sin64 a now w0 in
      deliveredMarkers (ui w1) = deliveredMarkers (ui w0) ++ [anim_to a] /\
      deliveredCount (ui w1) = deliveredCount (ui w0) + 1).
Proof.
  reached sin64 evs as w I.
  split; [apply (inv_markers w I)|]. split; [now cbn|].
  intros a now w0 Ht w1. unfold w1. rewrite step_arrived by exact Ht.
  now cbn.
Qed.


(** C10: in every reachable state [showIdle] is true exactly when no trip
    is animating and the delivered count is below [MAX_DELIVERIES]; so the
    third rejection of the dispatch handler is never taken, and its notice
    is never shown. *)
Theorem no_idle_notice_unreachable (evs : list event) :
  let w := run sin64 evs initial_world in
  (showIdle (ui w) = true <->
   isAnimating (ui w) = false /\ deliveredCount (ui w) < MAX_DELIVERIES) /\
  no_idle_branch w = false /\
  ~ In alert_no_idle (alerts w).
Proof.
  reached sin64 evs as w I.
  pose proof (inv_showIdle w I) as Hs.
  split; [|split].
  - rewrite Hs, andb_true_iff, negb_true_iff, Nat.ltb_lt. reflexivity.
  - unfold no_idle_branch. rewrite Hs.
    destruct (MAX_DELIVERIES <=? deliveredCount (ui w)) eqn:Hmax;
      [reflexivity|].
    apply Nat.leb_gt, Nat.ltb_lt in Hmax. rewrite Hmax.
    now destruct (isAnimating (ui w)).
  - apply (inv_alerts w I).
Qed.

End Tracker.

(** ** Reaching the cap *)

Section Exhaustion.
Variable sin64 : float -> float.

Lemma frame_under_way now w h a :
  frames w = [(h, a)] -> (progress a now <? 1)%float = true ->
  run_frame sin64 now w =
  mkWorld
    (mkState (Some (position (anim_from a) (anim_to a) (progress a now)))
             (showIdle (ui w)) (deliveredMarkers (ui w)) (isAnimating (ui w))
             (scaleValue (M := js_math sin64) (progress a now))
             (deliveredCount (ui w)))
    (Some (next_handle w)) [(next_handle w, a)]
    (S (next_handle w)) (alerts w).
Proof.
  intros Hf Ht. rewrite (run_frame_one sin64 now w h a Hf).
  now rewrite step_under_way.
Qed.

Lemma frame_arrival now w h a :
  frames w = [(h, a)] -> (progress a now <? 1)%float = false ->
  run_frame sin64 now w =
  mkWorld
    (mkState None (deliveredCount (ui w) + 1 <? MAX_DELIVERIES)
             (deliveredMarkers (ui w) ++ [anim_to a]) false 1%float
             (deliveredCount (ui w) + 1))
    None [] (next_handle w) (alerts w).
Proof.
  intros Hf Ht. rewrite (run_frame_one sin64 now w h a Hf).
  now rewrite step_arrived.
Qed.

(** Frames that find the trip under way leave the bookkeeping alone. *)
Lemma frames_under_way a (fs : list float) :
  forall w h,
    frames w = [(h, a)] ->
    forallb (fun now => (progress a now <? 1)%float) fs = true ->
    let w' := run sin64 (map Frame fs) w in
    (exists h', frames w' = [(h', a)]) /\
    deliveredMarkers (ui w') = deliveredMarkers (ui w) /\
    deliveredCount (ui w') = deliveredCount (ui w) /\
    alerts w' = alerts w.
Proof.
  induction fs as [|f fs IH]; intros w h Hf Hall.
  - cbn. split; [now exists h|auto].
  - cbn [forallb] in Hall. apply andb_true_iff in Hall as [Hf1 Hrest].
    cbn [map].
    change (run sin64 (Frame f :: map Frame fs) w)
      with (run sin64 (map Frame fs) (run_frame sin64 f w)).
    rewrite (frame_under_way f w h a Hf Hf1).
    match goal with |- context [run sin64 _ ?w1] => set (w1' := w1) end.
    destruct (IH w1' (next_handle w) eq_refl Hrest) as (Hh & Hm & Hc & Ha).
    cbn zeta. repeat split; assumption.
Qed.

(** One completed dispatch from a world with no trip and room below the
    cap: one more marker at the destination, one more in the count. *)
Lemma completed_dispatch d w :
  invariant w -> frames w = [] ->
  deliveredCount (ui w) < MAX_DELIVERIES ->
  completes d = true ->
  let w' := run sin64 (dispatch_events d) w in
  frames w' = [] /\
  deliveredMarkers (ui w') = deliveredMarkers (ui w) ++ [ARGENTINA_COORD] /\
  deliveredCount (ui w') = deliveredCount (ui w) + 1 /\
  alerts w' = alerts w.
Proof.
  intros I Hf Hlt Hd. unfold completes in Hd.
  apply andb_true_iff in Hd as [Hway Harr]. apply negb_true_iff in Harr.
  unfold dispatch_events. rewrite run_cons, run_app, run_cons, run_nil.
  cbn [handle]. rewrite handleOrderClick_ready by assumption.
  match goal with |- context [run sin64 (map Frame _) ?w1] => set (w1' := w1) end.
  destruct (frames_under_way (trip (ordered d)) (under_way d) w1'
              (next_handle w) eq_refl Hway) as ([h' Hh] & Hm & Hc & Ha).
  cbn zeta in *.
  rewrite (frame_arrival (arrival d) _ h' _ Hh Harr). cbn.
  rewrite Hm, Hc, Ha. now cbn.
Qed.

Lemma completed_dispatches (ds : list dispatch) :
  forall w,
    invariant w -> frames w = [] ->
    deliveredCount (ui w) + length ds <= MAX_DELIVERIES ->
    forallb completes ds = true ->
    let w' := run sin64 (concat (map dispatch_events ds)) w in
    frames w' = [] /\
    deliveredMarkers (ui w') =
      deliveredMarkers (ui w) ++ repeat ARGENTINA_COORD (length ds) /\
    deliveredCount (ui w') = deliveredCount (ui w) + length ds /\
    alerts w' = alerts w.
Proof.
  induction ds as [|d ds IH]; intros w I Hf Hle Hall.
  - cbn. rewrite app_nil_r, Nat.add_0_r. auto.
  - cbn [map concat length forallb] in *.
    apply andb_true_iff in Hall as [Hd Hall].
    rewrite run_app.
    assert (Hlt : deliveredCount (ui w) < MAX_DELIVERIES) by lia.
    destruct (completed_dispatch d w I Hf Hlt Hd) as (Hf1 & Hm1 & Hc1 & Ha1).
    cbn zeta in *.
    pose proof (invariant_run sin64 (dispatch_events d) w I) as I1.
    destruct (IH _ I1 Hf1 ltac:(rewrite Hc1; lia) Hall) as (Hf2 & Hm2 & Hc2 & Ha2).
    cbn zeta in *. rewrite Hf2, Hm2, Hc2, Ha2, Hm1, Hc1, Ha1.
    repeat split; [|lia]. now rewrite <- app_assoc.
Qed.

(** At the cap with no trip under way, nothing changes any more: frames
    find nothing to run and every request only adds its notice. *)
Lemma exhausted_forever (evs : list event) :
  forall w,
    frames w = [] -> MAX_DELIVERIES <= deliveredCount (ui w) ->
    run sin64 evs w =
    mkWorld (ui w) (animRef w) (frames w) (next_handle w)
            (alerts w ++ repeat alert_max_deliveries (dispatch_requests evs)).
Proof.
  induction evs as [|e evs IH]; intros w Hf Hle.
  - cbn. rewrite app_nil_r. now destruct w.
  - rewrite run_cons. destruct e as [now|now]; cbn [handle].
    + rewrite handleOrderClick_exhausted by exact Hle.
      rewrite IH by assumption. cbn. now rewrite <- app_assoc.
    + rewrite run_frame_idle by exact Hf. rewrite IH by assumption. reflexivity.
Qed.

(** C3: five consecutive completed dispatches from the initial state leave
    five delivered markers and the tracker [Exhausted]; whatever happens
    afterwards, the state stays as it is and every dispatch request is
    rejected with the notice that the maximum is reached. *)
Theorem five_dispatches_exhaust (ds : list dispatch) :
  length ds = MAX_DELIVERIES ->
  forallb completes ds = true ->
  let w := run sin64 (concat (map dispatch_events ds)) initial_world in
  length (deliveredMarkers (ui w)) = 5 /\
  tracker_state w = Exhausted /\
  forall evs,
    let w' := run sin64 evs w in
    ui w' = ui w /\ animRef w' = animRef w /\ frames w' = frames w /\
    alerts w' =
      alerts w ++ repeat alert_max_deliveries (dispatch_requests evs) /\
    forall now,
      handleOrderClick now w' = window_alert alert_max_deliveries w' /\
      rejected_with_notice w' (handleOrderClick now w').
Proof.
  intros Hlen Hall w.
  destruct (completed_dispatches ds initial_world invariant_initial eq_refl
              ltac:(cbn; lia) Hall) as (Hf & Hm & Hc & Ha).
  cbn zeta in *. fold w in Hf, Hm, Hc, Ha.
  rewrite Hlen in *. cbn in Hm, Hc.
  split; [now rewrite Hm|]. split.
  { unfold tracker_state, active_trips. now rewrite Hf, Hc. }
  intros evs.
  rewrite exhausted_forever by (rewrite ?Hc; auto). cbn.
  repeat (split; [reflexivity|]).
  intros now.
  rewrite handleOrderClick_exhausted by (cbn [ui]; rewrite Hc; auto).
  split; [reflexivity|]. unfold rejected_with_notice. cbn.
  repeat split. now exists alert_max_deliveries.
Qed.

End Exhaustion.

(** ** Properties of the interpolator *)

Section Binary64.

(** What [is_finite] says about the value a binary64 number denotes. *)
Lemma finite_cases (x : float) :
  is_finite x = true ->
  (exists s, Prim2SF x = S754_zero s) \/
  (exists s m e, Prim2SF x = S754_finite s m e).
Proof.
  unfold is_finite, is_nan, is_infinity.
  rewrite !FloatAxioms.eqb_spec, abs_spec.
  change (Prim2SF infinity) with (S754_infinity false).
  destruct (Prim2SF x) as [s | s | | s m e].
  - intros _. left. now exists s.
  - cbn. rewrite orb_true_r. discriminate.
  - cbn. discriminate.
  - intros _. right. now exists s, m, e.
Qed.

Lemma SFeqb_finite_refl s m e :
  SFeqb (S754_finite s m e) (S754_finite s m e) = true.
Proof.
  unfold SFeqb, SFcompare.
  destruct s; rewrite Z.compare_refl, Pos.compare_cont_refl; reflexivity.
Qed.

(** At [t = 0] the rounding does no harm: [lerp a b 0] is [a], as [===]
    compares numbers, whenever [a] and the difference [b - a] are finite. *)
Lemma lerp_at_0 (a b : float) :
  is_finite a = true -> is_finite (b - a)%float = true ->
  (lerp a b 0 =? a)%float = true.
Proof.
  intros Ha Hd. unfold lerp. cbn [num_add num_sub num_mul js_number].
  rewrite FloatAxioms.eqb_spec, add_spec, mul_spec.
  change (Prim2SF 0%float) with (S754_zero false).
  destruct (finite_cases _ Hd) as [[sd Ed] | (sd & md & ed & Ed)];
    rewrite Ed; cbn [SF64mul SFmul];
    destruct (finite_cases _ Ha) as [[sa Ea] | (sa & ma & ea & Ea)];
    rewrite Ea; cbn [SF64add SFadd].
  - now destruct sa, sd.
  - apply SFeqb_finite_refl.
  - now destruct sa, sd.
  - apply SFeqb_finite_refl.
Qed.

End Binary64.

Section Exact.
Local Open Scope R_scope.

Lemma lerp_exact_0 (a b : R) : lerp a b 0 = a.
Proof. unfold lerp. cbn. ring. Qed.

Lemma lerp_exact_1 (a b : R) : lerp a b 1 = b.
Proof. unfold lerp. cbn. ring. Qed.

Lemma lerp_exact_convex (a b t : R) : lerp a b t = (1 - t) * a + t * b.
Proof. unfold lerp. cbn. ring. Qed.

Lemma lerp_exact_between (a b t : R) :
  0 <= t <= 1 -> between a b (lerp a b t).
Proof.
  intros [H0 H1]. unfold between, lerp. cbn.
  destruct (Rle_dec a b) as [Hab | Hab]; [left | right]; split; nra.
Qed.

Lemma scaleValue_exact_0 : scaleValue 0 = 1.
Proof.
  unfold scaleValue. cbn. rewrite Rmult_0_r, sin_0. lra.
Qed.

Lemma scaleValue_exact_1 : scaleValue 1 = 1.
Proof.
  unfold scaleValue. cbn. rewrite Rmult_1_r, sin_PI. lra.
Qed.

Lemma scaleValue_exact_half : scaleValue (1 / 2) = 16 / 10.
Proof.
  unfold scaleValue. cbn.
  replace (PI * (1 / 2)) with (PI / 2) by lra.
  rewrite sin_PI2. lra.
Qed.

End Exact.

Section Interpolation.
Variable sin64 : float -> float.

(** C1: for every [from], [to] and [t] the interpolator returns the
    latitude [from.lat + (to.lat - from.lat) * t], the longitude likewise,
    and the scale [1 + 0.6 * sin(pi * t)], in the arithmetic it is run in;
    it is a total function of its three arguments alone, and these are the
    position and scale that [step] leaves in the state at a frame that
    finds the trip under way. *)
Theorem interpolate_contract :
  (forall (num : Type) (N : Number num) (M : MathObject num)
          (from to : num * num) (t : num),
      interpolate from to t = interpolate_spec from to t) /\
  (forall (a : animation) (now : float) (w : world),
      let t := progress a now in
      let r := interpolate_spec (M := js_math sin64) (anim_from a) (anim_to a) t in
      (t <? 1)%float = true ->
      movingPosition (ui (step sin64 a now w)) = Some (fst r) /\
      movingScale (ui (step sin64 a now w)) = snd r).
Proof.
  split.
  - intros num N M from to t. reflexivity.
  - intros a now w t r Ht. unfold t in Ht.
    rewrite step_under_way by exact Ht. now cbn.
Qed.

Lemma scaleValue_at (t y : float) :
  sin64 (Math_PI64 * t)%float = y ->
  scaleValue (M := js_math sin64) t = (1 + 0.6 * y)%float.
Proof.
  intros Hy. unfold scaleValue.
  cbn [num_add num_mul lit_1 lit_0_6 js_number Math_sin Math_PI js_math].
  now rewrite Hy.
Qed.


End Interpolation.


(** ** Concrete runs *)

(** A frame 7 s after the request finds [t] clamped to 1; one 0.5 ms
    before the request finds it negative. *)
Example progress_after_arrival : progress (trip 0%float) 7000%float = 1%float.
Proof. reflexivity. Qed.

Example progress_before_start :
  (progress (trip 100%float) 99.5%float <? 0)%float = true.
Proof. reflexivity. Qed.

(** Half way, the marker is over the Atlantic at its largest. *)
Example half_way :
  ui (run sin64_table [Dispatch 0%float; Frame 3000%float] initial_world)
  = mkState (Some (-10.764665312399128, 10.912945805468041)%float) false []
            true 1.6%float 0.
Proof. reflexivity. Qed.

Example one_delivery :
  run sin64_table (dispatch_events (sample_dispatch 0%float)) initial_world
  = mkWorld (mkState None true [ARGENTINA_COORD] false 1%float 1) None [] 4 [].
Proof. reflexivity. Qed.



Lemma five_dispatches_exhaust_witness :
  let w := run sin64_table (concat (map dispatch_events five_dispatches))
               initial_world in
  length (deliveredMarkers (ui w)) = 5 /\
  tracker_state w = Exhausted /\
  forall evs,
    let w' := run sin64_table evs w in
    ui w' = ui w /\ animRef w' = animRef w /\ frames w' = frames w /\
    alerts w' =
      alerts w ++ repeat alert_max_deliveries (dispatch_requests evs) /\
    forall now,
      handleOrderClick now w' = window_alert alert_max_deliveries w' /\
      rejected_with_notice w' (handleOrderClick now w').
Proof.
  exact (five_dispatches_exhaust sin64_table five_dispatches eq_refl eq_refl).
Defined.




(** * Further properties *)

(** ** The clamp of [progress] *)

Section Clamp.

Lemma SFcompare_antisym (x y : spec_float) :
  SFcompare y x = option_map CompOpp (SFcompare x y).
Proof.
  destruct x as [sx | sx | | sx mx ex], y as [sy | sy | | sy my ey];
    cbn; try reflexivity;
    try (destruct sx; reflexivity); try (destruct sy; reflexivity);
    try (destruct sx, sy; reflexivity).
  destruct sx, sy; cbn; try reflexivity;
    rewrite (Z.compare_antisym ex ey);
    destruct (ex ?= ey)%Z; cbn; try reflexivity;
    change (PosDef.Pos.compare_cont Eq my mx) with (my ?= mx)%positive;
    change (PosDef.Pos.compare_cont Eq mx my) with (mx ?= my)%positive;
    rewrite (Pos.compare_antisym mx my);
    destruct (mx ?= my)%positive; reflexivity.
Qed.

Lemma ltb_not_leb (a b : float) :
  (a <? b)%float = true -> (b <=? a)%float = false.
Proof.
  rewrite ltb_spec, leb_spec. unfold SFltb, SFleb.
  rewrite (SFcompare_antisym (Prim2SF a) (Prim2SF b)).
  destruct (SFcompare (Prim2SF a) (Prim2SF b)) as [[]|]; cbn; congruence.
Qed.

Lemma ltb_not_ltb (a b : float) :
  (a <? b)%float = true -> (b <? a)%float = false.
Proof.
  rewrite !ltb_spec. unfold SFltb.
  rewrite (SFcompare_antisym (Prim2SF a) (Prim2SF b)).
  destruct (SFcompare (Prim2SF a) (Prim2SF b)) as [[]|]; cbn; congruence.
Qed.

Lemma is_nan_spec (x : float) :
  is_nan x = true -> Prim2SF x = S754_nan.
Proof.
  unfold is_nan. rewrite FloatAxioms.eqb_spec.
  destruct (Prim2SF x) as [s | s | | s m e]; cbn; try discriminate.
  - destruct s; discriminate.
  - reflexivity.
  - unfold SFeqb, SFcompare.
    destruct s; rewrite Z.compare_refl, Pos.compare_cont_refl; discriminate.
Qed.

Lemma nan_ltb (x y : float) : is_nan x = true -> (x <? y)%float = false.
Proof.
  intros Hx. rewrite ltb_spec, (is_nan_spec x Hx). reflexivity.
Qed.

Lemma SFcompare_finite_Eq s m e s' m' e' :
  SFcompare (S754_finite s m e) (S754_finite s' m' e') = Some Eq ->
  S754_finite s m e = S754_finite s' m' e'.
Proof.
  unfold SFcompare.
  change (PosDef.Pos.compare_cont Eq m m') with (m ?= m')%positive.
  destruct s, s'; try discriminate;
    destruct (e ?= e')%Z eqn:He; try discriminate;
    destruct (m ?= m')%positive eqn:Hm; try discriminate;
    intros _; apply Z.compare_eq in He; apply Pos.compare_eq in Hm;
    now subst.
Qed.

(** Two numbers of which neither is NaN nor below the other, one of them
    being 1, are the same number. *)
Lemma not_ltb_1_eq (x : float) :
  is_nan x = false -> (1 <? x)%float = false -> (x <? 1)%float = false ->
  x = 1%float.
Proof.
  intros Hnan H1 H2. apply Prim2SF_inj.
  revert Hnan H1 H2. unfold is_nan.
  rewrite FloatAxioms.eqb_spec, !ltb_spec. unfold SFltb, SFeqb.
  rewrite (SFcompare_antisym (Prim2SF 1%float) (Prim2SF x)).
  change (Prim2SF 1%float) with (S754_finite false 4503599627370496 (-52)).
  generalize 4503599627370496%positive (-52)%Z. intros m1 e1.
  destruct (Prim2SF x) as [s | s | | s m e].
  - cbn. discriminate.
  - cbn. destruct s; discriminate.
  - cbn. discriminate.
  - intros _.
    destruct (SFcompare (S754_finite false m1 e1) (S754_finite s m e))
      as [[]|] eqn:Hc; cbn; try discriminate.
    intros _ _. symmetry. now apply SFcompare_finite_Eq.
Qed.

Lemma Math_min_1_cases (x : float) :
  (is_nan x = true /\ Math_min 1 x = nan) \/
  (is_nan x = false /\ (1 <? x)%float = true /\ Math_min 1 x = 1%float) \/
  (is_nan x = false /\ (1 <? x)%float = false /\ Math_min 1 x = x).
Proof.
  unfold Math_min. change (is_nan 1) with false. cbn [orb].
  destruct (is_nan x) eqn:Hnan; [now left | right].
  destruct (1 <? x)%float eqn:H1; [now left | right].
  repeat split.
  destruct (x <? 1)%float eqn:H2; [reflexivity|].
  change (is_neg_zero 1) with false. reflexivity.
Qed.

End Clamp.

(** X1: [t] never exceeds 1, with or without the clamp it is below 1 for the
    same frames, and once it is at least 1 it is 1: whatever the closure
    and the timestamp, NaN and the infinities included. *)
Theorem progress_clamped (a : animation) (now : float) :
  (1 <? progress a now)%float = false /\
  (progress a now <? 1)%float
    = ((now - start a) / durationMs a <? 1)%float /\
  ((1 <=? progress a now)%float = true -> progress a now = 1%float).
Proof.
  unfold progress. cbn zeta.
  set (x := ((now - start a) / durationMs a)%float).
  destruct (Math_min_1_cases x)
    as [[Hnan ->] | [(Hnan & H1 & ->) | (Hnan & H1 & ->)]].
  - repeat split; [now rewrite (nan_ltb x 1%float Hnan) | discriminate].
  - repeat split. now rewrite (ltb_not_ltb _ _ H1).
  - repeat split; [exact H1|]. intros Hge.
    apply not_ltb_1_eq; try assumption.
    destruct (x <? 1)%float eqn:H2; [|reflexivity].
    now rewrite (ltb_not_leb _ _ H2) in Hge.
Qed.

(** ** Where markers, trips and alerts come from *)

Section Provenance.
Variable sin64 : float -> float.

Lemma repeat_snoc {A : Type} (x : A) (n : nat) :
  repeat x n ++ [x] = repeat x (n + 1).
Proof. now rewrite repeat_app. Qed.

Lemma provenance_initial : provenance initial_world.
Proof.
  constructor; cbn; auto. congruence.
Qed.

Lemma provenance_handleOrderClick now w :
  invariant w -> provenance w -> provenance (handleOrderClick now w).
Proof.
  intros I P. by_guards w I as Hanim Hcap Hf.
  - now rewrite handleOrderClick_animating.
  - rewrite handleOrderClick_ready by assumption. destruct P.
    constructor; cbn; auto; try lia;
      (constructor; [cbn; first [lia | now exists now] | constructor]).
  - rewrite handleOrderClick_exhausted by exact Hcap. destruct P.
    constructor; cbn; auto.
    + rewrite length_app, <- repeat_snoc. cbn. now rewrite <- prov_alerts0.
    + intros _. pose proof (inv_cap w I). lia.
Qed.

Lemma provenance_run_frame now w :
  invariant w -> provenance w -> provenance (run_frame sin64 now w).
Proof.
  intros I P. destruct (frames w) as [|[h a] l] eqn:Hf.
  - now rewrite run_frame_idle.
  - pose proof (inv_one_trip w I) as Hone. rewrite Hf in Hone.
    destruct l; [|cbn in Hone; lia].
    assert (Hanim : isAnimating (ui w) = true).
    { rewrite (inv_animating w I). unfold has_trip. now rewrite Hf. }
    pose proof (inv_in_flight w I Hanim) as Hlt.
    destruct P. rewrite Hf in *.
    apply Forall_inv in prov_trips0 as [c Hc]. cbn in Hc. subst a.
    assert (Hno : alerts w = []).
    { destruct (alerts w); [reflexivity|].
      assert (deliveredCount (ui w) = MAX_DELIVERIES)
        by (apply prov_alert_cap0; discriminate).
      lia. }
    destruct (progress (trip c) now <? 1)%float eqn:Ht.
    + rewrite (frame_under_way sin64 now w h _ Hf Ht).
      constructor; cbn; auto; try lia;
        (constructor; [cbn; first [lia | now exists c] | constructor]).
    + rewrite (frame_arrival sin64 now w h _ Hf Ht).
      constructor; cbn; auto; try lia.
      * now rewrite prov_markers0, repeat_snoc.
      * rewrite Hno. congruence.
Qed.

Lemma provenance_reachable evs :
  provenance (run sin64 evs initial_world).
Proof.
  assert (H : forall w, invariant w -> provenance w ->
                        provenance (run sin64 evs w)).
  { induction evs as [|e evs IH]; intros w I P; [exact P|].
    rewrite run_cons. apply IH.
    - now apply invariant_handle.
    - destruct e; cbn [handle].
      + now apply provenance_handleOrderClick.
      + now apply provenance_run_frame. }
  apply H; [apply invariant_initial | apply provenance_initial].
Qed.

(** X2: Every delivered marker is at the destination: in every reachable
    state the list is [deliveredCount] copies of [ARGENTINA_COORD]. *)
Theorem markers_at_destination (evs : list event) :
  let w := run sin64 evs initial_world in
  deliveredMarkers (ui w) = repeat ARGENTINA_COORD (deliveredCount (ui w)).
Proof.
  intros w. apply (prov_markers w (provenance_reachable evs)).
Qed.


End Provenance.

(** ** Growth of the delivered markers *)

Section Growth.
Variable sin64 : float -> float.

Lemma extends_refl w w' :
  deliveredMarkers (ui w') = deliveredMarkers (ui w) ->
  deliveredCount (ui w') = deliveredCount (ui w) ->
  extends w w'.
Proof.
  intros Hm Hc. exists []. now rewrite app_nil_r, Nat.add_0_r.
Qed.

Lemma extends_trans w1 w2 w3 :
  extends w1 w2 -> extends w2 w3 -> extends w1 w3.
Proof.
  intros (l1 & Hm1 & Hc1) (l2 & Hm2 & Hc2). exists (l1 ++ l2).
  rewrite Hm2, Hm1, Hc2, Hc1, length_app, app_assoc. split; [reflexivity|lia].
Qed.

Lemma extends_handleOrderClick now w : extends w (handleOrderClick now w).
Proof.
  apply extends_refl; unfold handleOrderClick;
    destruct (MAX_DELIVERIES <=? deliveredCount (ui w));
    destruct (isAnimating (ui w)); destruct (showIdle (ui w));
    reflexivity.
Qed.

Lemma extends_step a now w : extends w (step sin64 a now w).
Proof.
  destruct (progress a now <? 1)%float eqn:Ht.
  - rewrite step_under_way by exact Ht. now apply extends_refl.
  - rewrite step_arrived by exact Ht. now exists [anim_to a].
Qed.

Lemma extends_run_frame now w : extends w (run_frame sin64 now w).
Proof.
  unfold run_frame.
  set (w0 := mkWorld (ui w) (animRef w) [] (next_handle w) (alerts w)).
  assert (H0 : extends w w0) by now apply extends_refl.
  revert H0. generalize w0. clear w0.
  induction (frames w) as [|c l IH]; intros w0 H0; cbn; [exact H0|].
  apply IH. eapply extends_trans; [exact H0 | apply extends_step].
Qed.

(** X4: Deliveries are never taken back, in any world: whatever events
    follow, the markers present stay at the front of the list, and the
    count goes up by exactly the number of markers appended. *)
Theorem deliveries_only_grow (evs : list event) (w : world) :
  exists l,
    deliveredMarkers (ui (run sin64 evs w)) = deliveredMarkers (ui w) ++ l /\
    deliveredCount (ui (run sin64 evs w)) = deliveredCount (ui w) + length l.
Proof.
  change (extends w (run sin64 evs w)).
  revert w. induction evs as [|e evs IH]; intros w.
  - now apply extends_refl.
  - rewrite run_cons. eapply extends_trans; [|apply IH].
    destruct e; cbn [handle].
    + apply extends_handleOrderClick.
    + apply extends_run_frame.
Qed.

End Growth.

(** ** What is on the map *)

Section Map.
Variable sin64 : float -> float.


Lemma last_repeat {A : Type} (x d : A) (n : nat) :
  last (repeat x n) d = if n =? 0 then d else x.
Proof.
  induction n as [|n IH]; [reflexivity|].
  cbn [repeat]. destruct n; [reflexivity|].
  change (last (x :: repeat x (S n)) d) with (last (repeat x (S n)) d).
  rewrite IH. reflexivity.
Qed.

(** X6: The map follows the moving marker while a trip is under way, rests on
    India before the first delivery and on Argentina after any: in every
    reachable state. *)
Theorem map_follows (evs : list event) :
  let w := run sin64 evs initial_world in
  follow_pos (ui w) =
  match tracker_state w, movingPosition (ui w) with
  | InFlight, Some p => p
  | _, _ => if deliveredCount (ui w) =? 0 then INDIA_COORD else ARGENTINA_COORD
  end /\
  (tracker_state w = InFlight <-> movingPosition (ui w) <> None).
Proof.
  intros w. pose proof (invariant_reachable sin64 evs) as I. fold w in I.
  pose proof (provenance_reachable sin64 evs) as P. fold w in P.
  pose proof (inv_position w I) as Hp. pose proof (inv_animating w I) as Ha.
  unfold follow_pos, tracker_state, active_trips, has_position, has_trip in *.
  rewrite (prov_markers w P), last_repeat.
  destruct (frames w) as [|c l]; cbn [map];
    destruct (movingPosition (ui w)); rewrite Ha in Hp; try discriminate.
  - split; [now destruct (MAX_DELIVERIES <=? deliveredCount (ui w))|].
    split; [|congruence].
    destruct (MAX_DELIVERIES <=? deliveredCount (ui w)); discriminate.
  - split; [reflexivity|]. split; [discriminate | reflexivity].
Qed.



(** X9: The arrival of a trip decides the tracker by the new count alone:
    from any reachable [Idle] state a completed dispatch adds one marker
    at the destination and one to the count, and leaves the tracker
    [Idle], with the idle biryani shown, if the new count is below the cap
    and [Exhausted], with none, if not. *)
Theorem arrival_decides (evs : list event) (d : dispatch) :
  let w := run sin64 evs initial_world in
  tracker_state w = Idle ->
  completes d = true ->
  let w' := run sin64 (dispatch_events d) w in
  deliveredCount (ui w') = deliveredCount (ui w) + 1 /\
  deliveredMarkers (ui w') = deliveredMarkers (ui w) ++ [ARGENTINA_COORD] /\
  showIdle (ui w') = (deliveredCount (ui w) + 1 <? MAX_DELIVERIES) /\
  tracker_state w' =
    if deliveredCount (ui w) + 1 <? MAX_DELIVERIES then Idle else Exhausted.
Proof.
  intros w Hidle Hd. pose proof (invariant_reachable sin64 evs) as I.
  fold w in I. unfold tracker_state in Hidle.
  destruct (active_trips w) eqn:Ha; [|discriminate].
  destruct (MAX_DELIVERIES <=? deliveredCount (ui w)) eqn:Hmax;
    [discriminate|].
  apply Nat.leb_gt in Hmax.
  destruct (not_in_flight_idle w I Ha) as [Hf _].
  destruct (completed_dispatch sin64 d w I Hf Hmax Hd) as (Hf' & Hm & Hc & _).
  pose proof (invariant_run sin64 (dispatch_events d) w I) as I'.
  cbn zeta in *.
  set (w' := run sin64 (dispatch_events d) w) in *.
  assert (Hanim : isAnimating (ui w') = false).
  { rewrite (inv_animating w' I'). unfold has_trip. now rewrite Hf'. }
  repeat split; try assumption.
  - now rewrite (inv_showIdle w' I'), Hanim, Hc.
  - unfold tracker_state, active_trips. rewrite Hf', Hc. cbn [map].
    rewrite Nat.ltb_antisym.
    now destruct (MAX_DELIVERIES <=? deliveredCount (ui w) + 1).
Qed.

End Map.

(** ** The scale curve in exact arithmetic *)



Lemma arrival_decides_witness :
  let w := run sin64_table (concat (map dispatch_events
                                       (firstn 4 five_dispatches)))
               initial_world in
  let d := sample_dispatch 28000%float in
  tracker_state w = Idle /\
  completes d = true /\
  let w' := run sin64_table (dispatch_events d) w in
  deliveredCount (ui w') = deliveredCount (ui w) + 1 /\
  deliveredMarkers (ui w') = deliveredMarkers (ui w) ++ [ARGENTINA_COORD] /\
  showIdle (ui w') = (deliveredCount (ui w) + 1 <? MAX_DELIVERIES) /\
  tracker_state w' =
    if deliveredCount (ui w) + 1 <? MAX_DELIVERIES then Idle else Exhausted.
Proof.
  split; [reflexivity|]. split; [reflexivity|].
  exact (arrival_decides sin64_table
           (concat (map dispatch_events (firstn 4 five_dispatches)))
           (sample_dispatch 28000%float) eq_refl eq_refl).
Defined.

(** ** The first version *)

Section FirstVersionFacts.
Variable sin64 : float -> float.

Lemma first_invariant_initial :
  FirstVersion.invariant FirstVersion.initial_world.
Proof. constructor; cbn; auto. Qed.

Lemma first_handleOrderClick now w :
  FirstVersion.invariant w ->
  FirstVersion.handleOrderClick now w =
  FirstVersion.mkWorld
    (FirstVersion.mkState (FirstVersion.position (FirstVersion.ui w)) true
                          (FirstVersion.scale (FirstVersion.ui w)))
    (Some (FirstVersion.next_handle w))
    [(FirstVersion.next_handle w, FirstVersion.trip now)]
    (S (FirstVersion.next_handle w)).
Proof.
  intros I. pose proof (FirstVersion.inv_ref w I) as Hr.
  unfold FirstVersion.handleOrderClick, FirstVersion.animateBucket.
  destruct (FirstVersion.animationRef w) as [h|].
  - destruct Hr as (H1 & _ & a & Hi).
    destruct (h =? 0) eqn:H0; [apply Nat.eqb_eq in H0; lia|].
    unfold FirstVersion.clearInterval, FirstVersion.setIsAnimating,
      FirstVersion.setInterval_current. cbn. rewrite Hi. cbn.
    now rewrite Nat.eqb_refl.
  - unfold FirstVersion.setIsAnimating, FirstVersion.setInterval_current.
    cbn. now rewrite Hr.
Qed.

Lemma first_invariant_handleOrderClick now w :
  FirstVersion.invariant w ->
  FirstVersion.invariant (FirstVersion.handleOrderClick now w).
Proof.
  intros I. rewrite first_handleOrderClick by exact I.
  pose proof (FirstVersion.inv_next w I).
  constructor; cbn; auto.
  - constructor; [now exists now | constructor].
  - repeat split; try lia. now exists (FirstVersion.trip now).
Qed.

(** The callback on the one interval held, by whether [t >= 1]. *)
Lemma first_tick a now w h :
  FirstVersion.intervals w = [(h, a)] ->
  FirstVersion.animationRef w = Some h ->
  FirstVersion.tick sin64 a now w =
  if (1 <=? progress a now)%float then
    FirstVersion.mkWorld
      (FirstVersion.mkState
         (position (anim_from a) (anim_to a) (progress a now)) false
         (scaleValue (M := js_math sin64) (progress a now)))
      None [] (FirstVersion.next_handle w)
  else
    FirstVersion.mkWorld
      (FirstVersion.mkState
         (position (anim_from a) (anim_to a) (progress a now))
         (FirstVersion.isAnimating (FirstVersion.ui w))
         (scaleValue (M := js_math sin64) (progress a now)))
      (Some h) [(h, a)] (FirstVersion.next_handle w).
Proof.
  intros Hi Hr. unfold FirstVersion.tick. cbn zeta.
  destruct (1 <=? progress a now)%float.
  - unfold FirstVersion.clearInterval_current, FirstVersion.clearInterval,
      FirstVersion.setIsAnimating, FirstVersion.clear_animationRef,
      FirstVersion.setScale, FirstVersion.setPosition.
    cbn. rewrite Hr, Hi. cbn. now rewrite Nat.eqb_refl.
  - unfold FirstVersion.setScale, FirstVersion.setPosition. cbn.
    now rewrite Hr, Hi.
Qed.

Lemma first_fire_held h now w a :
  FirstVersion.intervals w = [(h, a)] ->
  FirstVersion.fire sin64 h now w = FirstVersion.tick sin64 a now w.
Proof.
  intros Hi. unfold FirstVersion.fire. rewrite Hi. cbn [find fst].
  now rewrite Nat.eqb_refl.
Qed.

Lemma first_invariant_fire h now w :
  FirstVersion.invariant w ->
  FirstVersion.invariant (FirstVersion.fire sin64 h now w).
Proof.
  intros I. pose proof (FirstVersion.inv_ref w I) as Hr.
  unfold FirstVersion.fire.
  destruct (FirstVersion.animationRef w) as [h0|] eqn:Href.
  - destruct Hr as (H1 & H2 & a & Hi). rewrite Hi. cbn [find fst snd].
    destruct (h0 =? h); [|exact I]. cbn [snd].
    rewrite (first_tick a now w h0 Hi Href).
    pose proof (FirstVersion.inv_next w I).
    pose proof (FirstVersion.inv_trips w I) as Ht. rewrite Hi in Ht.
    pose proof (FirstVersion.inv_animating w I) as Ha. rewrite Hi in Ha.
    destruct (1 <=? progress a now)%float; constructor; cbn; auto.
    repeat split; try lia. now exists a.
  - rewrite Hr. cbn. exact I.
Qed.

Lemma first_invariant_run evs w :
  FirstVersion.invariant w ->
  FirstVersion.invariant (FirstVersion.run sin64 evs w).
Proof.
  revert w. induction evs as [|e evs IH]; intros w I; [exact I|].
  cbn. apply IH. destruct e; cbn.
  - now apply first_invariant_handleOrderClick.
  - now apply first_invariant_fire.
Qed.

(** X11: The first version holds at most one interval, whatever is clicked and
    whenever: in every reachable state the intervals are none or the one
    [animationRef] names, a trip from India to Argentina, and
    [isAnimating] says whether there is one. *)
Theorem first_version_one_interval (evs : list FirstVersion.event) :
  let w := FirstVersion.run sin64 evs FirstVersion.initial_world in
  length (FirstVersion.intervals w) <= 1 /\
  map fst (FirstVersion.intervals w)
    = match FirstVersion.animationRef w with Some h => [h] | None => [] end /\
  Forall (fun c => exists now, snd c = FirstVersion.trip now)
         (FirstVersion.intervals w) /\
  (FirstVersion.isAnimating (FirstVersion.ui w) = true <->
   FirstVersion.intervals w <> []).
Proof.
  intros w.
  pose proof (first_invariant_run evs _ first_invariant_initial) as I.
  fold w in I. pose proof (FirstVersion.inv_ref w I) as Hr.
  pose proof (FirstVersion.inv_animating w I) as Ha.
  pose proof (FirstVersion.inv_trips w I) as Ht.
  destruct (FirstVersion.animationRef w) as [h|].
  - destruct Hr as (_ & _ & a & Hi). rewrite Hi in *. cbn.
    repeat split; auto; congruence.
  - rewrite Hr in *. cbn. repeat split; auto; congruence.
Qed.

(** X12: A click of the first version always restarts: in every reachable
    state, under way or not, it leaves exactly the trip that starts at the
    time of the click, with [isAnimating] true, and the marker where it
    was. *)
Theorem first_version_click_restarts
    (evs : list FirstVersion.event) (now : float) :
  let w := FirstVersion.run sin64 evs FirstVersion.initial_world in
  let w' := FirstVersion.handleOrderClick now w in
  map snd (FirstVersion.intervals w') = [FirstVersion.trip now] /\
  FirstVersion.isAnimating (FirstVersion.ui w') = true /\
  FirstVersion.position (FirstVersion.ui w')
    = FirstVersion.position (FirstVersion.ui w).
Proof.
  intros w w'. unfold w'.
  rewrite first_handleOrderClick
    by apply (first_invariant_run evs _ first_invariant_initial).
  now cbn.
Qed.

(** X13: The first version stops at the first tick that finds [t >= 1]: in
    every reachable state, such a tick of the interval held clears it and
    [animationRef], ends [isAnimating], and leaves the marker at
    [lerp(from, to, 1)], which is within the tolerance of
    [ARGENTINA_COORD] though not equal to it, with the scale of [t = 1]. *)
Theorem first_version_arrival
    (evs : list FirstVersion.event) (h : nat) (now : float) :
  let w := FirstVersion.run sin64 evs FirstVersion.initial_world in
  (exists a, In (h, a) (FirstVersion.intervals w) /\
             (1 <=? progress a now)%float = true) ->
  let w' := FirstVersion.fire sin64 h now w in
  FirstVersion.intervals w' = [] /\
  FirstVersion.animationRef w' = None /\
  FirstVersion.isAnimating (FirstVersion.ui w') = false /\
  FirstVersion.position (FirstVersion.ui w')
    = position FirstVersion.INDIA_COORD FirstVersion.ARGENTINA_COORD 1%float /\
  FirstVersion.position (FirstVersion.ui w')
    = (-34.6037, -58.381600000000006)%float /\
  coord_close64 (FirstVersion.position (FirstVersion.ui w'))
                FirstVersion.ARGENTINA_COORD = true /\
  FirstVersion.scale (FirstVersion.ui w')
    = scaleValue (M := js_math sin64) 1%float.
Proof.
  intros w (a & Hin & Hge) w'.
  pose proof (first_invariant_run evs _ first_invariant_initial) as I.
  fold w in I. pose proof (FirstVersion.inv_ref w I) as Hr.
  pose proof (FirstVersion.inv_trips w I) as Ht.
  destruct (FirstVersion.animationRef w) as [h0|] eqn:Href;
    [|rewrite Hr in Hin; destruct Hin].
  destruct Hr as (_ & _ & a0 & Hi). rewrite Hi in Hin, Ht.
  destruct Hin as [Heq | []]. injection Heq as -> ->.
  apply Forall_inv in Ht as [c Hc]. cbn in Hc.
  unfold w'. rewrite (first_fire_held h now w a Hi).
  rewrite (first_tick a now w h Hi Href), Hge.
  destruct (progress_clamped a now) as (_ & _ & H1).
  rewrite (H1 Hge), Hc. cbn.
  repeat split.
Qed.

End FirstVersionFacts.

Lemma first_version_arrival_witness :
  let w := FirstVersion.run sin64_table [FirstVersion.Click 0%float;
                                         FirstVersion.Tick 1 3000%float]
                            FirstVersion.initial_world in
  let w' := FirstVersion.fire sin64_table 1 6000%float w in
  FirstVersion.intervals w' = [] /\
  FirstVersion.animationRef w' = None /\
  FirstVersion.isAnimating (FirstVersion.ui w') = false /\
  FirstVersion.position (FirstVersion.ui w')
    = position FirstVersion.INDIA_COORD FirstVersion.ARGENTINA_COORD 1%float /\
  FirstVersion.position (FirstVersion.ui w')
    = (-34.6037, -58.381600000000006)%float /\
  coord_close64 (FirstVersion.position (FirstVersion.ui w'))
                FirstVersion.ARGENTINA_COORD = true /\
  FirstVersion.scale (FirstVersion.ui w')
    = scaleValue (M := js_math sin64_table) 1%float.
Proof.
  exact (first_version_arrival sin64_table
           [FirstVersion.Click 0%float; FirstVersion.Tick 1 3000%float]
           1 6000%float
           (ex_intro _ (FirstVersion.trip 0%float)
              (conj (or_introl eq_refl) eq_refl))).
Defined.

(** X14: A tick of the first version that is not of the interval
    [animationRef] names changes nothing: in every reachable state, the
    callback of a trip that a later click replaced never writes again. *)
Theorem first_version_stale_tick
    (sin64 : float -> float) (evs : list FirstVersion.event)
    (h : nat) (now : float) :
  let w := FirstVersion.run sin64 evs FirstVersion.initial_world in
  FirstVersion.animationRef w <> Some h ->
  FirstVersion.fire sin64 h now w = w.
Proof.
  intros w Hne.
  pose proof (first_invariant_run sin64 evs _ first_invariant_initial) as I.
  fold w in I. pose proof (FirstVersion.inv_ref w I) as Hr.
  unfold FirstVersion.fire.
  destruct (FirstVersion.animationRef w) as [h0|].
  - destruct Hr as (_ & _ & a & Hi). rewrite Hi. cbn [find fst].
    destruct (h0 =? h) eqn:He; [|reflexivity].
    apply Nat.eqb_eq in He. congruence.
  - now rewrite Hr.
Qed.

Lemma first_version_stale_tick_witness :
  let w := FirstVersion.run sin64_table
             [FirstVersion.Click 0%float; FirstVersion.Tick 1 3000%float;
              FirstVersion.Click 4000%float]
             FirstVersion.initial_world in
  FirstVersion.animationRef w = Some 2 /\
  FirstVersion.fire sin64_table 1 7000%float w = w.
Proof.
  split; [reflexivity|].
  exact (first_version_stale_tick sin64_table
           [FirstVersion.Click 0%float; FirstVersion.Tick 1 3000%float;
            FirstVersion.Click 4000%float]
           1 7000%float ltac:(discriminate)).
Defined.
